(** * EnglishWordMaster: word-game utilities, quiz session controllers,
      history store and speech service

    A shallow embedding of the JavaScript sources of the vocabulary trainer
    and the properties its design document states about them.

    Conventions of the embedding.
    - A JavaScript string is a [string]; [split] and [join] are
      [s.split('')] and [arr.join('')].  The word data are ASCII English words.
    - Array indices and lengths are [nat]; JavaScript numbers that are the
      result of a division are IEEE-754 doubles ([float], the kernel's
      binary64), because [Math.round((c / n) * 100)] depends on it.
    - [Math.random()] is an oracle: each call site takes the drawn value as an
      argument.
    - React state is explicit state passing: an event handler is a function of
      the state captured by the render in which it was created. *)

From Stdlib Require Import Floats ZArith Uint63 Ascii String.
From stdpp Require Import base list strings gmap.

Local Open Scope nat_scope.

(** ** JavaScript strings and arrays *)

Module JS.

(** [s.split('')]: the characters of [s]. *)
Definition split (s : string) : list ascii := String.list_ascii_of_string s.

(** [arr.join('')] of an array of one-character strings. *)
Definition join (arr : list ascii) : string := String.string_of_list_ascii arr.

(** [arr.join('')] when a slot may hold [undefined] ([None]): [join] renders
    [undefined] as the empty string. *)
Definition join_undef (arr : list (option ascii)) : string :=
  join (omap id arr).

(** [s[i]]: [undefined] ([None]) out of range. *)
Definition char_at (s : string) (i : nat) : option ascii := split s !! i.

(** [arr.map((x, index) => f x index)]. *)
Definition map_indexed {A B} (f : A → nat → B) (arr : list A) : list B :=
  imap (λ index x, f x index) arr.

(** [arr.slice(0, count)]. *)
Definition slice0 {A} (count : nat) (arr : list A) : list A := take count arr.

(** [Math.floor(Math.random() * n)] for [n > 0]: [Math.random()] lies in
    [0, 1), so the draw is some index below [n]; the oracle value [u] stands
    for the draw [u mod n], which covers exactly that range. *)
Definition random_below (u n : nat) : nat := u mod n.

End JS.

(** String methods, on ASCII text. *)

Module Text.

(** Whitespace removed by [trim] (the ASCII part of it: tab, line feed,
    vertical tab, form feed, carriage return and space; JavaScript also
    removes U+00A0 and the other Unicode spaces, which no ASCII string
    holds). *)
Definition isSpace (c : ascii) : bool :=
  match nat_of_ascii c with
  | 9 | 10 | 11 | 12 | 13 | 32 => true
  | _ => false
  end.

Fixpoint trimStart (chars : list ascii) : list ascii :=
  match chars with
  | c :: rest => if isSpace c then trimStart rest else chars
  | [] => []
  end.

(** [s.trim()]. *)
Definition trim (s : string) : string :=
  JS.join (rev (trimStart (rev (trimStart (JS.split s))))).

Definition lowerChar (c : ascii) : ascii :=
  let n := nat_of_ascii c in
  if (65 <=? n) && (n <=? 90) then ascii_of_nat (n + 32) else c.

(** [s.toLowerCase()] on ASCII text: [A]-[Z] are folded; the letters beyond
    ASCII that JavaScript folds as well do not occur in it. *)
Definition toLowerCase (s : string) : string :=
  JS.join (lowerChar <$> JS.split s).

Definition isLetter (c : ascii) : bool :=
  let n := nat_of_ascii c in
  ((65 <=? n) && (n <=? 90)) || ((97 <=? n) && (n <=? 122)).

(** [/^[a-zA-Z]+$/.test(s)]. *)
Definition isAlphabetic (s : string) : bool :=
  negb (String.eqb s "") && forallb isLetter (JS.split s).

(** [s.startsWith(p)]. *)
Definition startsWith (p s : string) : bool := String.prefix p s.

(** [s.includes(p)]. *)
Fixpoint includes (p s : string) : bool :=
  String.prefix p s ||
  match s with
  | EmptyString => false
  | String _ rest => includes p rest
  end.

End Text.

(** ** Word-game utilities (utils/wordHelpers.js) *)

Definition checkAnswer (userAnswer correctWord : string) : bool :=
  String.eqb (Text.toLowerCase (Text.trim userAnswer))
             (Text.toLowerCase (Text.trim correctWord)).

Definition underscore : ascii := "_"%char.

Definition generateLetterPuzzle (word : string) : string :=
  if String.length word <=? 3 then
    let hiddenIndex := String.length word / 2 in
    JS.join (JS.map_indexed
      (λ char index, if index =? hiddenIndex then underscore else char)
      (JS.split word))
  else if String.length word <=? 6 then
    JS.join (JS.map_indexed
      (λ char index, if index mod 2 =? 1 then underscore else char)
      (JS.split word))
  else
    JS.join (JS.map_indexed
      (λ char index,
         if (index mod 3 =? 1) || (index mod 5 =? 2) then underscore else char)
      (JS.split word)).

(** Indices of the masked slots, as the [forEach] loop of [getHint] collects
    them. *)
Fixpoint hidden_from (index : nat) (puzzleArray : list ascii) : list nat :=
  match puzzleArray with
  | [] => []
  | char :: rest =>
      if Ascii.eqb char underscore
      then index :: hidden_from (S index) rest
      else hidden_from (S index) rest
  end.

Definition hiddenIndices (puzzleArray : list ascii) : list nat :=
  hidden_from 0 puzzleArray.

(** [getHint]; [u] is the oracle value behind
    [Math.floor(Math.random() * hiddenIndices.length)]. *)
Definition getHint (u : nat) (currentPuzzle correctWord : string) : string :=
  let puzzleArray := JS.split currentPuzzle in
  let hidden := hiddenIndices puzzleArray in
  if length hidden =? 0 then currentPuzzle
  else
    match hidden !! JS.random_below u (length hidden) with
    | Some randomIndex =>
        JS.join_undef
          (<[randomIndex := JS.char_at correctWord randomIndex]>
             (Some <$> puzzleArray))
    | None => currentPuzzle
    end.

(** [handleHint] of the letter-puzzle controller applies [getHint] to the
    current puzzle; [applyHints us] is that, once per oracle value of [us]. *)
Fixpoint applyHints (us : list nat) (puzzle word : string) : string :=
  match us with
  | [] => puzzle
  | u :: us' => applyHints us' (getHint u puzzle word) word
  end.

(** Number of still-masked positions of a puzzle. *)
Definition maskedCount (puzzle : string) : nat :=
  length (hiddenIndices (JS.split puzzle)).

(** [puzzle] is a masked form of [word]: same length, and every position is
    either an underscore or the character of the word. *)
Definition maskingOf (puzzle word : string) : Prop :=
  Forall2 (λ p w, p = underscore ∨ p = w) (JS.split puzzle) (JS.split word).

(** *** Data model *)

(** An entry of the static word list. *)
Record WordEntry := {
  word : string;
  meaning : string;
  phonetic : string;
  exampleSentence : string;
  unitNumber : option nat  (* the optional [unit] *)
}.

(** The working copy a controller keeps: [{ ...w, retryCount }]. *)
Record SessionWord := {
  entry : WordEntry;
  retryCount : nat
}.

(** One attempt; [rWord] is its [word] property.  [hintsUsed] and [timeout]
    are absent ([None], JavaScript's [undefined]) in the results of the
    controllers that do not record them. *)
Record AnswerResult := {
  rWord : string;
  correct : bool;
  userAnswer : string;
  hintsUsed : option nat;
  timeout : option bool
}.

(** Objects with a [word] property: the helpers read [w.word] of whatever
    they are given. *)
Class HasWord (W : Type) := word_of : W → string.
#[export] Instance WordEntry_HasWord : HasWord WordEntry := word.
#[export] Instance SessionWord_HasWord : HasWord SessionWord := λ w, word (entry w).

(** *** shuffleArray *)

(** [[a[i], a[j]] = [a[j], a[i]]].  In [shuffleArray] both indices are within
    the array in every iteration. *)
Definition swap {A} (arr : list A) (i j : nat) : list A :=
  match arr !! i, arr !! j with
  | Some x, Some y => <[j := x]> (<[i := y]> arr)
  | _, _ => arr
  end.

(** The loop [for (let i = length - 1; i > 0; i--)] from index [i] downwards;
    [rnd i] is the oracle value drawn in the iteration with index [i]. *)
Fixpoint shuffle_loop {A} (rnd : nat → nat) (i : nat) (shuffled : list A)
  : list A :=
  match i with
  | 0 => shuffled
  | S i' =>
      let j := JS.random_below (rnd i) (i + 1) in
      shuffle_loop rnd i' (swap shuffled i j)
  end.

Definition shuffleArray {A} (rnd : nat → nat) (array : list A) : list A :=
  shuffle_loop rnd (length array - 1) array.

(** *** generateWrongOptions, selectRandomWords *)


Definition selectRandomWords {A} (rnd : nat → nat) (words : list A)
    (count : nat) : list A :=
  JS.slice0 count (shuffleArray rnd words).

(** *** calculateStats *)

Module Num.

(** A count as a JavaScript number (exact below 2^53). *)
Definition of_count (n : nat) : float :=
  PrimFloat.of_uint63 (Uint63.of_Z (Z.of_nat n)).

(** [Math.round]: the nearest integer, a tie going up; that is
    [floor (x + 1/2)] computed exactly on the value [m * 2^e] of the double.
    (For NaN and the infinities, which are no integers, the model gives 0;
    [calculateStats] never rounds one.) *)
Definition Math_round (x : float) : Z :=
  match Prim2SF x with
  | S754_finite s m e =>
      let n := if s then Z.neg m else Z.pos m in
      if (0 <=? e)%Z then (n * 2 ^ e)%Z
      else ((2 * n + 2 ^ (- e)) / 2 ^ (1 - e))%Z
  | _ => 0%Z
  end.

End Num.

Record SessionStats := {
  total : Z;
  correctCount : Z;
  incorrect : Z;
  accuracy : Z;
  withHints : Z;
  withoutHints : Z;
  correctWithoutHints : Z;
  totalHintsUsed : Z;
  timeoutCount : Z
}.

(** [r.hintsUsed && r.hintsUsed > 0]. *)
Definition usedHints (r : AnswerResult) : bool :=
  match hintsUsed r with
  | Some h => 0 <? h
  | None => false
  end.

(** [!r.hintsUsed || r.hintsUsed === 0]. *)
Definition noHints (r : AnswerResult) : bool :=
  match hintsUsed r with
  | Some h => h =? 0
  | None => true
  end.

(** [r.timeout] as a condition. *)
Definition timedOut (r : AnswerResult) : bool := default false (timeout r).

(** [results.filter(p).length]. *)
Definition countWhere (p : AnswerResult → bool) (results : list AnswerResult)
  : nat :=
  length (filter (λ r, p r = true) results).

(** The hint-aware [calculateStats]. *)
Definition calculateStats (results : list AnswerResult) : SessionStats :=
  let total := length results in
  let withHints := countWhere usedHints results in
  let timeoutCount := countWhere timedOut results in
  let totalHintsUsed :=
    foldl (λ sum r, sum + default 0 (hintsUsed r)) 0 results in
  let correctWithoutHints :=
    countWhere (λ r, correct r && noHints r) results in
  let allCorrect := countWhere correct results in
  let withoutHints := countWhere noHints results in
  let accuracy :=
    if 0 <? withoutHints
    then Num.Math_round
           (Num.of_count correctWithoutHints / Num.of_count withoutHints
            * Num.of_count 100)%float
    else 0%Z in
  {| total := Z.of_nat total;
     correctCount := Z.of_nat allCorrect;
     incorrect := Z.of_nat total - Z.of_nat allCorrect;
     accuracy := accuracy;
     withHints := Z.of_nat withHints;
     withoutHints := Z.of_nat withoutHints;
     correctWithoutHints := Z.of_nat correctWithoutHints;
     totalHintsUsed := Z.of_nat totalHintsUsed;
     timeoutCount := Z.of_nat timeoutCount |}.

(** The earlier variant of [calculateStats] kept in utils/wordHelpers.js: no
    hint or timeout accounting, accuracy over all results. *)
Module Basic.

Record Stats := {
  total : Z;
  correctCount : Z;
  incorrect : Z;
  accuracy : Z
}.

Definition calculateStats (results : list AnswerResult) : Stats :=
  let total := length results in
  let correct := countWhere correct results in
  let accuracy :=
    if 0 <? total
    then Num.Math_round
           (Num.of_count correct / Num.of_count total * Num.of_count 100)%float
    else 0%Z in
  {| total := Z.of_nat total;
     correctCount := Z.of_nat correct;
     incorrect := Z.of_nat total - Z.of_nat correct;
     accuracy := accuracy |}.

End Basic.





(** Sample data for concrete runs. *)
Definition sampleWord (w : string) : WordEntry :=
  {| word := w; meaning := ""; phonetic := ""; exampleSentence := "";
     unitNumber := None |}.


(** ** Quiz session controllers (components/ListenSpell.js, FillBlank.js,
       LetterPuzzle.js) *)

#[export] Instance WordEntry_eq_dec : EqDecision WordEntry.
Proof. solve_decision. Defined.

#[export] Instance SessionWord_eq_dec : EqDecision SessionWord.
Proof. solve_decision. Defined.

Inductive Mode := ListenSpell | FillBlank | LetterPuzzle.

(** The state hooks of a controller.  The three components have the same
    [words], [currentIndex], [showAnswer], [isCorrect] and [results];
    [userInput] is [selectedAnswer] in FillBlank; [puzzle] and [hintCount]
    (the component's [hintsUsed]) belong to LetterPuzzle, [elapsedTime] and
    [isTimeout] to ListenSpell.  The option buttons of FillBlank are
    presentation only and are not part of the state. *)
Record Session := {
  words : list SessionWord;
  currentIndex : nat;
  userInput : string;
  showAnswer : bool;
  isCorrect : option bool;
  results : list AnswerResult;
  puzzle : string;
  hintCount : nat;
  elapsedTime : nat;
  isTimeout : bool
}.

Definition TIMEOUT_SECONDS : nat := 30.

(** What the user and the timer can do. *)
Inductive Event :=
| Input (text : string)   (* typing, or selecting an option in FillBlank *)
| Submit
| Next
| Skip
| Hint (u : nat)          (* LetterPuzzle; [u] is the oracle of [getHint] *)
| Tick.                   (* one second of the ListenSpell timer *)

(** [{ ...w, retryCount: 0 }]: the working copy of an initial word. *)
Definition fresh (w : WordEntry) : SessionWord :=
  {| entry := w; retryCount := 0 |}.

(** [const currentWord = words[currentIndex]]. *)
Definition currentWord (s : Session) : option SessionWord :=
  words s !! currentIndex s.

(** [const copy = [...arr]; copy.splice(position, 0, x)]. *)
Definition spliceInsert {A} (position : nat) (x : A) (arr : list A) : list A :=
  take position arr ++ x :: drop position arr.

(** [x || '(skipped)']. *)
Definition orSkipped (text : string) : string :=
  if String.eqb text "" then "(skipped)" else text.

(** The result object a mode records for an attempt. *)
Definition answerResult (mode : Mode) (s : Session) (w : SessionWord)
    (ok : bool) (answer : string) : AnswerResult :=
  match mode with
  | ListenSpell =>
      {| rWord := word_of w; correct := ok; userAnswer := answer;
         hintsUsed := Some 0; timeout := Some (isTimeout s) |}
  | FillBlank =>
      {| rWord := word_of w; correct := ok; userAnswer := answer;
         hintsUsed := None; timeout := None |}
  | LetterPuzzle =>
      {| rWord := word_of w; correct := ok; userAnswer := answer;
         hintsUsed := Some (hintCount s); timeout := None |}
  end.

(** The effects that run after a render: LetterPuzzle rebuilds the puzzle when
    [currentIndex] changed; ListenSpell restarts its timer when [currentIndex]
    or [showAnswer] changed and no answer is shown.  [old] is the state of the
    previous render ([None] at mount). *)
Definition runEffects (mode : Mode) (old : option Session) (s : Session)
  : Session :=
  match mode, currentWord s with
  | LetterPuzzle, Some w =>
      if decide (currentIndex <$> old = Some (currentIndex s)) then s
      else {| words := words s; currentIndex := currentIndex s;
              userInput := userInput s; showAnswer := showAnswer s;
              isCorrect := isCorrect s; results := results s;
              puzzle := generateLetterPuzzle (word_of w); hintCount := 0;
              elapsedTime := elapsedTime s; isTimeout := isTimeout s |}
  | ListenSpell, Some w =>
      if decide (currentIndex <$> old = Some (currentIndex s)
                 ∧ showAnswer <$> old = Some (showAnswer s)) then s
      else if showAnswer s then s
      else {| words := words s; currentIndex := currentIndex s;
              userInput := userInput s; showAnswer := showAnswer s;
              isCorrect := isCorrect s; results := results s;
              puzzle := puzzle s; hintCount := hintCount s;
              elapsedTime := 0; isTimeout := false |}
  | _, _ => s
  end.

(** [useState(initialWords.map(w => ({ ...w, retryCount: 0 })))] and the other
    initial hook values, followed by the mount effects. *)
Definition initSession (mode : Mode) (initialWords : list WordEntry) : Session :=
  runEffects mode None
    {| words := fresh <$> initialWords;
       currentIndex := 0; userInput := ""; showAnswer := false;
       isCorrect := None; results := []; puzzle := ""; hintCount := 0;
       elapsedTime := 0; isTimeout := false |}.

(** [!selectedAnswer] in FillBlank, [!userInput.trim()] in the other two. *)
Definition noAnswer (mode : Mode) (s : Session) : bool :=
  match mode with
  | FillBlank => String.eqb (userInput s) ""
  | _ => String.eqb (Text.trim (userInput s)) ""
  end.

(** [handleSubmit]: nothing without an answer; otherwise the answer is
    checked, shown and recorded. *)
Definition handleSubmit (mode : Mode) (s : Session) (w : SessionWord)
  : Session :=
  if noAnswer mode s then s
  else
    let ok := checkAnswer (userInput s) (word_of w) in
    {| words := words s; currentIndex := currentIndex s;
       userInput := userInput s; showAnswer := true; isCorrect := Some ok;
       results := results s ++ [answerResult mode s w ok (userInput s)];
       puzzle := puzzle s; hintCount := hintCount s;
       elapsedTime := elapsedTime s; isTimeout := isTimeout s |}.

(** [handleNext].  It reads the hook values of the render that created it
    ([s]) and schedules its updates on top of [pending], the updates already
    scheduled by its caller ([s] itself when the Next button calls it).  The
    second component is the call [onComplete(results)], with the [results] of
    that render (the host always passes an [onComplete]). *)
Definition handleNext (s pending : Session) (w : SessionWord)
  : Session * option (list AnswerResult) :=
  let updatedWords :=
    if negb (default false (isCorrect s)) && (retryCount w =? 0) then
      let insertPosition := Nat.min (currentIndex s + 3) (length (words s)) in
      spliceInsert insertPosition {| entry := entry w; retryCount := 1 |}
        (words s)
    else words pending in
  if (Z.of_nat (currentIndex s) <? Z.of_nat (length (words s)) - 1)%Z then
    ({| words := updatedWords; currentIndex := currentIndex s + 1;
        userInput := ""; showAnswer := false; isCorrect := None;
        results := results pending;
        puzzle := puzzle pending; hintCount := hintCount pending;
        elapsedTime := elapsedTime pending; isTimeout := isTimeout pending |},
     None)
  else
    ({| words := updatedWords; currentIndex := currentIndex pending;
        userInput := userInput pending; showAnswer := showAnswer pending;
        isCorrect := isCorrect pending; results := results pending;
        puzzle := puzzle pending; hintCount := hintCount pending;
        elapsedTime := elapsedTime pending; isTimeout := isTimeout pending |},
     Some (results s)).

(** [handleSkip]: [setResults([...results, skipped])], then [handleNext()]. *)
Definition handleSkip (mode : Mode) (s : Session) (w : SessionWord)
  : Session * option (list AnswerResult) :=
  let answer :=
    match mode with
    | FillBlank => "(skipped)"%string
    | _ => orSkipped (userInput s)
    end in
  let pending :=
    {| words := words s; currentIndex := currentIndex s;
       userInput := userInput s; showAnswer := showAnswer s;
       isCorrect := isCorrect s;
       results := results s ++ [answerResult mode s w false answer];
       puzzle := puzzle s; hintCount := hintCount s;
       elapsedTime := elapsedTime s; isTimeout := isTimeout s |} in
  handleNext s pending w.

(** [handleHint] of LetterPuzzle. *)
Definition handleHint (u : nat) (s : Session) (w : SessionWord) : Session :=
  {| words := words s; currentIndex := currentIndex s;
     userInput := userInput s; showAnswer := showAnswer s;
     isCorrect := isCorrect s; results := results s;
     puzzle := getHint u (puzzle s) (word_of w); hintCount := hintCount s + 1;
     elapsedTime := elapsedTime s; isTimeout := isTimeout s |}.

(** One tick of the ListenSpell interval. *)
Definition handleTick (s : Session) : Session :=
  let newTime := elapsedTime s + 1 in
  {| words := words s; currentIndex := currentIndex s;
     userInput := userInput s; showAnswer := showAnswer s;
     isCorrect := isCorrect s; results := results s;
     puzzle := puzzle s; hintCount := hintCount s;
     elapsedTime := newTime;
     isTimeout := if TIMEOUT_SECONDS <=? newTime then true else isTimeout s |}.

Definition handleInput (text : string) (s : Session) : Session :=
  {| words := words s; currentIndex := currentIndex s;
     userInput := text; showAnswer := showAnswer s;
     isCorrect := isCorrect s; results := results s;
     puzzle := puzzle s; hintCount := hintCount s;
     elapsedTime := elapsedTime s; isTimeout := isTimeout s |}.

(** One event on a mounted controller: the handler the rendered page offers
    for it (none while there is no current word; answer form, Skip, Hint and
    timer only before the answer is shown, the Next button only after), then
    the effects of the following render.  The second component is the call to
    [onComplete], if the handler made one. *)
Definition step (mode : Mode) (s : Session) (e : Event)
  : Session * option (list AnswerResult) :=
  match currentWord s with
  | None => (s, None)
  | Some w =>
      let '(s', completed) :=
        match e, showAnswer s with
        | Input text, false => (handleInput text s, None)
        | Submit, false => (handleSubmit mode s w, None)
        | Skip, false => handleSkip mode s w
        | Next, true => handleNext s s w
        | Hint u, false =>
            match mode with
            | LetterPuzzle =>
                if decide (underscore ∈ JS.split (puzzle s))
                then (handleHint u s w, None) else (s, None)
            | _ => (s, None)
            end
        | Tick, false =>
            match mode with
            | ListenSpell => (handleTick s, None)
            | _ => (s, None)
            end
        | _, _ => (s, None)
        end in
      (runEffects mode (Some s) s', completed)
  end.

(** A run of events.  The host's [handleComplete] switches to the results
    view, which unmounts the controller: events after the call to
    [onComplete] do not reach it. *)
Fixpoint run (mode : Mode) (s : Session) (events : list Event)
  : Session * option (list AnswerResult) :=
  match events with
  | [] => (s, None)
  | e :: rest =>
      match step mode s e with
      | (s', Some delivered) => (s', Some delivered)
      | (s', None) => run mode s' rest
      end
  end.

(** Whether an event is an attempt at the current word: a submission the
    controller acts on, or a skip. *)
Definition attemptMade (mode : Mode) (s : Session) (e : Event) : nat :=
  match e, currentWord s, showAnswer s with
  | Submit, Some _, false => if noAnswer mode s then 0 else 1
  | Skip, Some _, false => 1
  | _, _, _ => 0
  end.

(** The number of attempts of a run, up to the call to [onComplete]. *)
Fixpoint attempts (mode : Mode) (s : Session) (events : list Event) : nat :=
  match events with
  | [] => 0
  | e :: rest =>
      match step mode s e with
      | (_, Some _) => attemptMade mode s e
      | (s', None) => attemptMade mode s e + attempts mode s' rest
      end
  end.

(** The copy [{ ...currentWord, retryCount: 1 }] that [handleNext] inserts. *)
Definition retryCopy (w : SessionWord) : SessionWord :=
  {| entry := entry w; retryCount := 1 |}.

(** Number of occurrences of [x] in [l]. *)
Definition occurrences `{EqDecision A} (x : A) (l : list A) : nat :=
  length (filter (λ y, y = x) l).

(** The two conditions of [handleNext]: does it insert a retry copy, and
    does it advance? *)
Definition insertsRetry (s : Session) (w : SessionWord) : bool :=
  negb (default false (isCorrect s)) && (retryCount w =? 0).

Definition advances (s : Session) : bool :=
  (Z.of_nat (currentIndex s) <? Z.of_nat (length (words s)) - 1)%Z.

(** The invariant of a session over [initialWords]: the entries with
    [retryCount] 0 are the initial words, in order; every [retryCount] is 0 or
    1; and every retry copy in the working sequence is accounted for by a
    first attempt among the first [passed] positions. *)
Definition retriesWithin (passed : nat) (ws : list SessionWord) : Prop :=
  ∀ w : WordEntry,
    occurrences {| entry := w; retryCount := 1 |} ws
    ≤ occurrences (fresh w) (take passed ws).

Definition sessionInv (initialWords : list WordEntry) (passed : nat)
    (ws : list SessionWord) : Prop :=
  filter (λ x, retryCount x = 0) ws = fresh <$> initialWords ∧
  Forall (λ x, retryCount x ≤ 1) ws ∧
  retriesWithin passed ws.

(** ** History store (utils/storageHelper.js) *)

(** A call either returns or throws; [try]/[catch] is a [match] on it. *)
Inductive Outcome (A : Type) :=
| Returned (value : A)
| Thrown (error : string).
Arguments Returned {A} value.
Arguments Thrown {A} error.

(** A parsed JSON value. *)
#[warnings="-register-all"]
Inductive JSValue :=
| JNull
| JBool (b : bool)
| JNumber (z : Z)
| JString (s : string)
| JArray (elements : list JSValue)
| JObject (fields : list (string * JSValue)).

(** The browser as the store sees it: the items of [localStorage], whether
    access to it is denied (every call on it then throws), and the lines
    written by [console.error] (label and error). *)
Record Browser := {
  items : gmap string string;
  accessDenied : bool;
  errorLog : list (string * string)
}.

Definition HISTORY_KEY : string := "vocabulary_learning_history".

Definition getItem (key : string) (b : Browser) : Outcome (option string) :=
  if accessDenied b then Thrown "SecurityError"
  else Returned (items b !! key).

Definition removeItem (key : string) (b : Browser) : Outcome Browser :=
  if accessDenied b then Thrown "SecurityError"
  else Returned {| items := delete key (items b);
                   accessDenied := accessDenied b;
                   errorLog := errorLog b |}.

Definition console_error (label error : string) (b : Browser) : Browser :=
  {| items := items b; accessDenied := accessDenied b;
     errorLog := errorLog b ++ [(label, error)] |}.

Section HistoryStore.

(** [JSON.parse], the JavaScript built-in: a value, or a thrown SyntaxError. *)
Variable JSON_parse : string → Outcome JSValue.

(** [getHistory]: the value returned and the browser afterwards.  A stored
    string is used when it is truthy, that is, present and not empty. *)
Definition getHistory (b : Browser) : JSValue * Browser :=
  let attempt :=
    match getItem HISTORY_KEY b with
    | Returned history =>
        match history with
        | Some text =>
            if String.eqb text "" then Returned (JArray [])
            else JSON_parse text
        | None => Returned (JArray [])
        end
    | Thrown error => Thrown error
    end in
  match attempt with
  | Returned value => (value, b)
  | Thrown error => (JArray [], console_error "Error reading history:" error b)
  end.

(** [clearHistory]. *)
Definition clearHistory (b : Browser) : Browser :=
  match removeItem HISTORY_KEY b with
  | Returned b' => b'
  | Thrown error => console_error "Error clearing history:" error b
  end.

End HistoryStore.

(** A parser that knows the empty array only, for concrete runs. *)
Definition parseEmptyArrayOnly (text : string) : Outcome JSValue :=
  if String.eqb text "[]" then Returned (JArray [])
  else Thrown "SyntaxError".

(** ** Speech service (hooks/useSpeech.js, the hybrid version) *)

Inductive AudioSource := hybrid | dictionary | webspeech.

Record Voice := { voiceName : string; voiceLang : string }.

Record Utterance := {
  uText : string;
  uLang : string;
  uRate : float;
  uPitch : float;
  uVolume : float;
  uVoice : option Voice
}.

(** The hook's state and the two playback channels: [isSpeaking],
    [isSupported] and [audioSource] are React state; [audioMounted] says that
    [audioRef.current] holds the audio element; [audioSrc] and [audioPlaying]
    are the element's source and whether it plays; [queue] holds the
    utterances handed to [speechSynthesis.speak] and not cancelled; [voices]
    is what [speechSynthesis.getVoices()] returns; [messages] are the lines of
    [console.log] and [console.warn]. *)
Record Speech := {
  isSpeaking : bool;
  isSupported : bool;
  audioSource : AudioSource;
  audioMounted : bool;
  audioSrc : option string;
  audioPlaying : bool;
  queue : list Utterance;
  voices : list Voice;
  messages : list string
}.

(** How the audio element answers one [load()]: it fires [canplaythrough]
    after some milliseconds (and the following [play()] resolves or rejects),
    or [error], or nothing. *)
Inductive AudioResponse :=
| CanPlayThrough (afterMs : nat) (playResolves : bool)
| ErrorEvent (afterMs : nat)
| Silent.

Definition LOAD_TIMEOUT_MS : nat := 3000.

Definition setIsSpeaking (value : bool) (sp : Speech) : Speech :=
  {| isSpeaking := value; isSupported := isSupported sp;
     audioSource := audioSource sp; audioMounted := audioMounted sp;
     audioSrc := audioSrc sp; audioPlaying := audioPlaying sp;
     queue := queue sp; voices := voices sp; messages := messages sp |}.

Definition console_line (line : string) (sp : Speech) : Speech :=
  {| isSpeaking := isSpeaking sp; isSupported := isSupported sp;
     audioSource := audioSource sp; audioMounted := audioMounted sp;
     audioSrc := audioSrc sp; audioPlaying := audioPlaying sp;
     queue := queue sp; voices := voices sp;
     messages := messages sp ++ [line] |}.

(** [stop]: pause the audio element, cancel the synthesis queue, clear
    [isSpeaking]. *)
Definition stop (sp : Speech) : Speech :=
  {| isSpeaking := false; isSupported := isSupported sp;
     audioSource := audioSource sp; audioMounted := audioMounted sp;
     audioSrc := audioSrc sp; audioPlaying := false;
     queue := []; voices := voices sp; messages := messages sp |}.

Section SpeechService.

(** [encodeURIComponent], the JavaScript built-in. *)
Variable encodeURIComponent : string → string.

Definition youdao_us (w : string) : string :=
  ("https://dict.youdao.com/dictvoice?audio=" +:+ encodeURIComponent w
   +:+ "&type=2")%string.

Definition youdao_uk (w : string) : string :=
  ("https://dict.youdao.com/dictvoice?audio=" +:+ encodeURIComponent w
   +:+ "&type=1")%string.

(** [playDictionaryAudio]: the promise it returns, settled by whichever of
    [canplaythrough], [error] and the 3-second timer comes first (the timer
    when the element answers at 3000 ms or later), and the state at that
    moment.  What the element does after the promise is settled is not part of
    the model. *)
Definition playDictionaryAudio (word : string) (uk : bool)
    (response : AudioResponse) (sp : Speech) : Outcome unit * Speech :=
  if negb (audioMounted sp) then (Thrown "Audio element not initialized", sp)
  else
    let audioUrl := if uk then youdao_uk word else youdao_us word in
    let loading :=
      {| isSpeaking := isSpeaking sp; isSupported := isSupported sp;
         audioSource := audioSource sp; audioMounted := audioMounted sp;
         audioSrc := Some audioUrl; audioPlaying := false;
         queue := queue sp; voices := voices sp; messages := messages sp |} in
    match response with
    | CanPlayThrough afterMs playResolves =>
        if afterMs <? LOAD_TIMEOUT_MS then
          (* handleCanPlay: setIsSpeaking(true), then play() *)
          let speaking := setIsSpeaking true loading in
          if playResolves then
            (Returned (),
             {| isSpeaking := isSpeaking speaking;
                isSupported := isSupported speaking;
                audioSource := audioSource speaking;
                audioMounted := audioMounted speaking;
                audioSrc := audioSrc speaking; audioPlaying := true;
                queue := queue speaking; voices := voices speaking;
                messages := messages speaking |})
          else (Thrown "NotAllowedError", speaking)
        else (Thrown "Dictionary audio load timeout", loading)
    | ErrorEvent afterMs =>
        if afterMs <? LOAD_TIMEOUT_MS then
          (* handleError, and the element's 'error' listener *)
          (Thrown "Failed to load dictionary audio",
           setIsSpeaking false loading)
        else (Thrown "Dictionary audio load timeout", loading)
    | Silent => (Thrown "Dictionary audio load timeout", loading)
    end.

Definition preferredName (v : Voice) : bool :=
  Text.includes "Google" (voiceName v)
  || Text.includes "Microsoft" (voiceName v)
  || Text.includes "Samantha" (voiceName v)
  || Text.includes "Daniel" (voiceName v).

(** [speakWithWebSpeech]: the utterance is queued; [isSpeaking] changes only
    on the utterance's events. *)
Definition speakWithWebSpeech (text lang : string) (rate : float) (sp : Speech)
  : Speech :=
  if negb (isSupported sp) then
    console_line "Speech synthesis is not supported in this browser" sp
  else
    let englishVoices :=
      filter (λ v, Text.startsWith "en" (voiceLang v) = true) (voices sp) in
    let preferredVoice :=
      match list_find (λ v, preferredName v = true) englishVoices with
      | Some (_, v) => Some v
      | None => head englishVoices
      end in
    let utterance :=
      {| uText := text; uLang := lang; uRate := rate; uPitch := 1%float;
         uVolume := 1%float; uVoice := preferredVoice |} in
    {| isSpeaking := isSpeaking sp; isSupported := isSupported sp;
       audioSource := audioSource sp; audioMounted := audioMounted sp;
       audioSrc := audioSrc sp; audioPlaying := audioPlaying sp;
       queue := [utterance]; voices := voices sp; messages := messages sp |}.

(** [speak]: what the caller's [await speak(...)] gets, and the state when
    the returned promise settles. *)
Definition speak (text lang : string) (rate : float) (response : AudioResponse)
    (sp : Speech) : Outcome unit * Speech :=
  let sp := stop sp in
  let isSingleWord := Text.isAlphabetic (Text.trim text) in
  let fallback (sp : Speech) : Outcome unit * Speech :=
    match audioSource sp with
    | dictionary => (Returned (), sp)
    | _ => (Returned (), speakWithWebSpeech text lang rate sp)
    end in
  match audioSource sp, isSingleWord with
  | webspeech, _ | _, false => fallback sp
  | _, true =>
      match playDictionaryAudio (Text.trim text) false response sp with
      | (Returned _, sp') => (Returned (), sp')
      | (Thrown error, sp') =>
          fallback
            (console_line
               ("Dictionary audio failed, falling back to Web Speech API: "
                +:+ error) sp')
      end
  end.

(** The dictionary attempt is made against the stopped channels, with the
    trimmed text and the US accent. *)
Definition dictionaryAttempt (text : string) (response : AudioResponse)
    (sp : Speech)
  : Outcome unit * Speech :=
  playDictionaryAudio (Text.trim text) false response (stop sp).

End SpeechService.

(** The attempt fails without touching [isSpeaking] when the element answers
    with [error], or not within the 3 seconds. *)
Definition failsBeforePlayable (response : AudioResponse) : Prop :=
  match response with
  | CanPlayThrough afterMs _ => LOAD_TIMEOUT_MS ≤ afterMs
  | ErrorEvent _ | Silent => True
  end.

(** The events of the two channels after [speak]: the utterance's [start],
    [end] and [error], and the audio element's [ended] and [error]. *)
Inductive ChannelEvent :=
| UtteranceStart | UtteranceEnd | UtteranceError | AudioEnded | AudioError.

Definition onChannelEvent (e : ChannelEvent) (sp : Speech) : Speech :=
  match e with
  | UtteranceStart => setIsSpeaking true sp
  | _ => setIsSpeaking false sp
  end.

(** A browser state for concrete runs: synthesis available, hybrid source,
    one voice. *)
Definition sampleSpeech : Speech :=
  {| isSpeaking := false; isSupported := true; audioSource := hybrid;
     audioMounted := true; audioSrc := None; audioPlaying := false;
     queue := [];
     voices := [{| voiceName := "Google US English"; voiceLang := "en-US" |}];
     messages := [] |}.

(** * Properties *)

(** ** generateLetterPuzzle *)

Section StringFacts.

Lemma split_join arr : JS.split (JS.join arr) = arr.
Proof. apply String.list_ascii_of_string_of_list_ascii. Qed.

Lemma join_split s : JS.join (JS.split s) = s.
Proof. apply String.string_of_list_ascii_of_string. Qed.

Lemma length_split s : length (JS.split s) = String.length s.
Proof. induction s as [|c s IH]; simpl; [done | by rewrite IH]. Qed.

Lemma length_join arr : String.length (JS.join arr) = length arr.
Proof. by rewrite <- length_split, split_join. Qed.

Lemma length_map_indexed {A B} (f : A → nat → B) arr :
  length (JS.map_indexed f arr) = length arr.
Proof. apply length_imap. Qed.

Lemma lookup_map_indexed {A B} (f : A → nat → B) arr i :
  JS.map_indexed f arr !! i = (λ x, f x i) <$> arr !! i.
Proof. unfold JS.map_indexed. by rewrite list_lookup_imap. Qed.

Lemma char_at_join_map_indexed (f : ascii → nat → ascii) s i c :
  JS.char_at s i = Some c →
  JS.char_at (JS.join (JS.map_indexed f (JS.split s))) i = Some (f c i).
Proof.
  unfold JS.char_at. intros Hc.
  by rewrite split_join, lookup_map_indexed, Hc.
Qed.

Lemma length_generateLetterPuzzle word :
  String.length (generateLetterPuzzle word) = String.length word.
Proof.
  unfold generateLetterPuzzle.
  repeat case_match; by rewrite length_join, length_map_indexed, length_split.
Qed.

(** Each character of the puzzle is an underscore or the character of the
    word. *)
Lemma generateLetterPuzzle_char word i c :
  JS.char_at word i = Some c →
  JS.char_at (generateLetterPuzzle word) i = Some underscore ∨
  JS.char_at (generateLetterPuzzle word) i = Some c.
Proof.
  intros Hc. unfold generateLetterPuzzle.
  repeat case_match; rewrite (char_at_join_map_indexed _ _ _ _ Hc);
    case_match; auto.
Qed.

Example checkAnswer_trims_and_folds_case :
  checkAnswer " Apple " "apple" = true ∧ checkAnswer "aple" "apple" = false.
Proof. split; reflexivity. Qed.

End StringFacts.

(** C4.  [generateLetterPuzzle] keeps the length of the word and follows the
    length-keyed masking policy: for a word of length at most 3 exactly the
    character at index [length / 2] (the middle one) becomes an underscore; for
    length 4 to 6 exactly the characters at odd indices; for length above 6
    exactly the indices [i] with [i mod 3 = 1] or [i mod 5 = 2]; every other
    character is unchanged.  In particular "cat" gives "c_t" and "garden"
    gives "g_r_e_". *)
Theorem generateLetterPuzzle_policy :
  (∀ word, String.length (generateLetterPuzzle word) = String.length word) ∧
  (∀ word i c, String.length word ≤ 3 → JS.char_at word i = Some c →
     JS.char_at (generateLetterPuzzle word) i =
       Some (if decide (i = String.length word / 2) then underscore else c)) ∧
  (∀ word i c, 3 < String.length word ≤ 6 → JS.char_at word i = Some c →
     JS.char_at (generateLetterPuzzle word) i =
       Some (if decide (i mod 2 = 1) then underscore else c)) ∧
  (∀ word i c, 6 < String.length word → JS.char_at word i = Some c →
     JS.char_at (generateLetterPuzzle word) i =
       Some (if decide (i mod 3 = 1 ∨ i mod 5 = 2) then underscore else c)) ∧
  generateLetterPuzzle "cat" = "c_t"%string ∧
  generateLetterPuzzle "garden" = "g_r_e_"%string.
Proof.
  split; [|split; [|split; [|split; [|split]]]]; try reflexivity.
  - apply length_generateLetterPuzzle.
  - intros word i c Hlen Hc. unfold generateLetterPuzzle.
    destruct (Nat.leb_spec (String.length word) 3) as [_|?]; [|lia].
    rewrite (char_at_join_map_indexed _ _ _ _ Hc). f_equal.
    destruct (Nat.eqb_spec i (String.length word / 2)); by case_decide.
  - intros word i c Hlen Hc. unfold generateLetterPuzzle.
    destruct (Nat.leb_spec (String.length word) 3) as [?|_]; [lia|].
    destruct (Nat.leb_spec (String.length word) 6) as [_|?]; [|lia].
    rewrite (char_at_join_map_indexed _ _ _ _ Hc). f_equal.
    destruct (Nat.eqb_spec (i mod 2) 1); by case_decide.
  - intros word i c Hlen Hc. unfold generateLetterPuzzle.
    destruct (Nat.leb_spec (String.length word) 3) as [?|_]; [lia|].
    destruct (Nat.leb_spec (String.length word) 6) as [?|_]; [lia|].
    rewrite (char_at_join_map_indexed _ _ _ _ Hc). f_equal.
    destruct (Nat.eqb_spec (i mod 3) 1), (Nat.eqb_spec (i mod 5) 2);
      simpl; case_decide; (done || lia || tauto).
Qed.

(** "garden": the character at index 3 is masked, the one at index 2 kept. *)
Lemma generateLetterPuzzle_policy_witness :
  JS.char_at (generateLetterPuzzle "garden") 3 = Some underscore ∧
  JS.char_at (generateLetterPuzzle "garden") 2 = Some "r"%char.
Proof.
  split.
  - apply (proj1 (proj2 (proj2 generateLetterPuzzle_policy)) "garden"%string
             3 "d"%char); [vm_compute; lia | reflexivity].
  - apply (proj1 (proj2 (proj2 generateLetterPuzzle_policy)) "garden"%string
             2 "r"%char); [vm_compute; lia | reflexivity].
Defined.

(** ** getHint *)

Section HintFacts.

Lemma elem_of_hidden_from k arr i :
  i ∈ hidden_from k arr ↔ ∃ j, i = k + j ∧ arr !! j = Some underscore.
Proof.
  revert k. induction arr as [|c arr IH]; intros k; simpl.
  - split; [by intros ?%elem_of_nil | by intros (j & _ & ?)].
  - destruct (Ascii.eqb_spec c underscore) as [->|Hne].
    + rewrite elem_of_cons, IH. split.
      * intros [->|(j & -> & Hj)]; [exists 0 | exists (S j)];
          split; (lia || done).
      * intros ([|j] & -> & Hj); [left; lia | right; exists j].
        split; [lia | done].
    + rewrite IH. split.
      * intros (j & -> & Hj). exists (S j). split; [lia | done].
      * intros ([|j] & -> & Hj); [simpl in Hj; congruence|].
        exists j. split; [lia | done].
Qed.

Lemma elem_of_hiddenIndices arr i :
  i ∈ hiddenIndices arr ↔ arr !! i = Some underscore.
Proof.
  unfold hiddenIndices. rewrite elem_of_hidden_from. split.
  - by intros (j & -> & Hj).
  - intros Hi. by exists i.
Qed.

Lemma length_hidden_from k arr :
  length (hidden_from k arr) = length (filter (λ c, c = underscore) arr).
Proof.
  revert k. induction arr as [|c arr IH]; intros k; simpl; [done|].
  destruct (Ascii.eqb_spec c underscore) as [->|Hne].
  - rewrite filter_cons_True by done. simpl. by rewrite IH.
  - rewrite filter_cons_False by done. by rewrite IH.
Qed.

Lemma length_hiddenIndices arr :
  length (hiddenIndices arr) = length (filter (λ c, c = underscore) arr).
Proof. apply length_hidden_from. Qed.

Lemma hiddenIndices_nil arr :
  underscore ∉ arr → hiddenIndices arr = [].
Proof.
  intros Hno. destruct (hiddenIndices arr) as [|i l] eqn:E; [done|].
  assert (i ∈ hiddenIndices arr) as Hi by (rewrite E; left).
  apply elem_of_hiddenIndices, list_elem_of_lookup_2 in Hi. done.
Qed.

Lemma hiddenIndices_pick u arr :
  underscore ∈ arr →
  ∃ i, hiddenIndices arr !! JS.random_below u (length (hiddenIndices arr))
         = Some i ∧ arr !! i = Some underscore.
Proof.
  intros [j Hj]%list_elem_of_lookup_1.
  assert (j ∈ hiddenIndices arr) as Hin by by apply elem_of_hiddenIndices.
  assert (0 < length (hiddenIndices arr)) as Hpos.
  { destruct (hiddenIndices arr); [by apply elem_of_nil in Hin | simpl; lia]. }
  destruct (lookup_lt_is_Some_2 (hiddenIndices arr)
              (JS.random_below u (length (hiddenIndices arr)))) as [i Hi].
  { unfold JS.random_below. apply Nat.mod_upper_bound. lia. }
  exists i. split; [done|].
  apply elem_of_hiddenIndices, list_elem_of_lookup. eauto.
Qed.

Lemma omap_id_Some {A} (l : list A) : omap id (Some <$> l) = l.
Proof. induction l as [|x l IH]; csimpl; [done | by f_equal]. Qed.

Lemma join_undef_insert_Some arr i c :
  JS.join_undef (<[i := Some c]> (Some <$> arr)) = JS.join (<[i := c]> arr).
Proof.
  unfold JS.join_undef.
  by rewrite <- (list_fmap_insert Some arr i c), omap_id_Some.
Qed.

(** Revealing a masked slot with a character that is no underscore lowers
    the number of masked slots by one. *)
Lemma filter_underscore_insert arr i c :
  arr !! i = Some underscore → c ≠ underscore →
  S (length (filter (λ c, c = underscore) (<[i := c]> arr)))
  = length (filter (λ c, c = underscore) arr).
Proof.
  revert i. induction arr as [|a arr IH]; intros [|i] Hi Hc;
    simpl in Hi; simplify_eq.
  - change (<[0:=c]> (underscore :: arr)) with (c :: arr).
    by rewrite filter_cons_False, filter_cons_True.
  - change (<[S i:=c]> (a :: arr)) with (a :: <[i:=c]> arr).
    rewrite !(filter_cons _ a). case_decide; simpl; by rewrite IH.
Qed.

(** What one hint does to a puzzle that still has a masked slot. *)
Lemma getHint_reveals u puzzle word :
  underscore ∈ JS.split puzzle →
  ∃ i, JS.char_at puzzle i = Some underscore ∧
       getHint u puzzle word
       = JS.join_undef (<[i := JS.char_at word i]> (Some <$> JS.split puzzle)).
Proof.
  intros Hin. destruct (hiddenIndices_pick u _ Hin) as (i & Hi & Hu).
  exists i. split; [done|]. unfold getHint.
  destruct (Nat.eqb_spec (length (hiddenIndices (JS.split puzzle))) 0) as [E|_].
  - apply nil_length_inv in E. by rewrite E in Hi.
  - by rewrite Hi.
Qed.

Lemma getHint_no_masked u puzzle word :
  underscore ∉ JS.split puzzle → getHint u puzzle word = puzzle.
Proof.
  intros Hno. unfold getHint. by rewrite (hiddenIndices_nil _ Hno).
Qed.

Lemma maskingOf_generateLetterPuzzle word :
  maskingOf (generateLetterPuzzle word) word.
Proof.
  unfold maskingOf. apply Forall2_same_length_lookup. split.
  - by rewrite !length_split, length_generateLetterPuzzle.
  - intros i p w Hp Hw.
    destruct (generateLetterPuzzle_char word i w Hw) as [E|E];
      unfold JS.char_at in E; naive_solver.
Qed.

Lemma getHint_step u puzzle word :
  underscore ∉ JS.split word → maskingOf puzzle word →
  underscore ∈ JS.split puzzle →
  maskingOf (getHint u puzzle word) word ∧
  S (maskedCount (getHint u puzzle word)) = maskedCount puzzle.
Proof.
  intros Hword Hmask Hin.
  destruct (getHint_reveals u puzzle word Hin) as (i & Hi & ->).
  unfold JS.char_at in *.
  destruct (Forall2_lookup_l _ _ _ _ _ Hmask Hi) as (c & Hc & _).
  rewrite Hc, join_undef_insert_Some.
  assert (c ≠ underscore) as Hne.
  { intros ->. by apply Hword, list_elem_of_lookup_2 with i. }
  split.
  - unfold maskingOf. rewrite split_join.
    rewrite <- (list_insert_id (JS.split word) i c) by done.
    apply Forall2_insert; [done | by right].
  - unfold maskedCount. rewrite split_join, !length_hiddenIndices.
    by apply filter_underscore_insert.
Qed.

Lemma maskedCount_0 puzzle :
  maskedCount puzzle = 0 ↔ underscore ∉ JS.split puzzle.
Proof.
  unfold maskedCount. split.
  - intros E%nil_length_inv Hin.
    destruct (list_elem_of_lookup_1 _ _ Hin) as [i Hi].
    apply elem_of_hiddenIndices in Hi. rewrite E in Hi.
    by apply elem_of_nil in Hi.
  - intros Hno. by rewrite hiddenIndices_nil.
Qed.

Lemma maskingOf_unmasked puzzle word :
  maskingOf puzzle word → underscore ∉ JS.split puzzle → puzzle = word.
Proof.
  unfold maskingOf. intros Hmask Hno.
  rewrite <- (join_split puzzle), <- (join_split word). f_equal.
  induction Hmask as [|p w ps ws Hpw _ IH]; [done|].
  destruct Hpw as [Hp|Hp]; subst p.
  - exfalso. apply Hno. left.
  - f_equal. apply IH. intros ?. apply Hno. by right.
Qed.

Lemma applyHints_count us : ∀ puzzle word,
  underscore ∉ JS.split word → maskingOf puzzle word →
  maskingOf (applyHints us puzzle word) word ∧
  maskedCount (applyHints us puzzle word) = maskedCount puzzle - length us.
Proof.
  induction us as [|u us IH]; intros puzzle word Hword Hmask; simpl.
  - split; [done | lia].
  - destruct (decide (underscore ∈ JS.split puzzle)) as [Hin|Hno].
    + destruct (getHint_step u puzzle word Hword Hmask Hin) as [Hm Hc].
      destruct (IH _ _ Hword Hm) as [Hm' Hc']. split; [done|].
      rewrite Hc'. lia.
    + rewrite getHint_no_masked by done.
      destruct (IH _ _ Hword Hmask) as [Hm' Hc']. split; [done|].
      apply maskedCount_0 in Hno. rewrite Hc'. lia.
Qed.

(** Where the word has no character at the chosen position the slot holds
    [undefined] and [join] drops it. *)
Example getHint_word_too_short : getHint 0 "a_" "a" = "a"%string.
Proof. reflexivity. Qed.

End HintFacts.

(** C5.  [getHint] returns the puzzle unchanged when it has no masked
    position; otherwise it picks one still-masked position and replaces it by
    the character of the word at that position, leaving every other position
    as it was; consequently, for a word without underscore, hints applied to
    [generateLetterPuzzle word] lower the number of masked positions by one
    each, whatever the random draws, and reach the word itself, with no masked
    position left, after exactly as many hints as there were masked
    positions (further hints change nothing). *)
Theorem getHint_reveals_until_word :
  (∀ u puzzle word,
     underscore ∉ JS.split puzzle → getHint u puzzle word = puzzle) ∧
  (∀ u puzzle word,
     underscore ∈ JS.split puzzle →
     ∃ i, JS.char_at puzzle i = Some underscore ∧
          ∀ c, JS.char_at word i = Some c →
               getHint u puzzle word = JS.join (<[i := c]> (JS.split puzzle))) ∧
  (∀ word us,
     underscore ∉ JS.split word →
     maskedCount (applyHints us (generateLetterPuzzle word) word)
       = maskedCount (generateLetterPuzzle word) - length us ∧
     (maskedCount (generateLetterPuzzle word) ≤ length us →
      applyHints us (generateLetterPuzzle word) word = word ∧
      maskedCount word = 0) ∧
     (length us < maskedCount (generateLetterPuzzle word) →
      applyHints us (generateLetterPuzzle word) word ≠ word)).
Proof.
  split; [|split].
  - intros. by apply getHint_no_masked.
  - intros u puzzle word Hin.
    destruct (getHint_reveals u puzzle word Hin) as (i & Hi & E).
    exists i. split; [done|]. intros c Hc.
    by rewrite E, Hc, join_undef_insert_Some.
  - intros word us Hword.
    destruct (applyHints_count us _ _ Hword (maskingOf_generateLetterPuzzle word))
      as [Hm Hc].
    assert (maskedCount word = 0) as Hw0 by by apply maskedCount_0.
    split; [done|]. split.
    + intros Hle. split; [|done].
      apply maskingOf_unmasked; [done|]. apply maskedCount_0. lia.
    + intros Hlt E. rewrite E in Hc. lia.
Qed.

(** The hints of "garden": three masked letters, three hints, any draws. *)
Lemma getHint_reveals_until_word_witness :
  applyHints [5; 0; 7] (generateLetterPuzzle "garden") "garden" = "garden"%string
  ∧ maskedCount "garden" = 0.
Proof.
  refine (proj1 (proj2 (proj2 (proj2 getHint_reveals_until_word) "garden"%string
                   [5; 0; 7] _)) _).
  - vm_compute. intros H. repeat (apply elem_of_cons in H as [H|H]; [discriminate|]).
    by apply elem_of_nil in H.
  - vm_compute. lia.
Defined.

(** ** shuffleArray and generateWrongOptions *)

Section ShuffleFacts.
Context {A : Type}.
Implicit Types (arr l : list A).

Lemma random_below_lt u n : 0 < n → JS.random_below u n < n.
Proof. intros. unfold JS.random_below. apply Nat.mod_upper_bound. lia. Qed.

(** Every index below [n] is a possible draw. *)
Lemma random_below_onto k n : k < n → JS.random_below k n = k.
Proof. intros. unfold JS.random_below. by apply Nat.mod_small. Qed.






End ShuffleFacts.

Section WrongOptions.
Context `{HasWord W}.
Implicit Types (words : list W) (correctWord : string).




End WrongOptions.




(** ** calculateStats *)

Section StatsFacts.
Implicit Types (results : list AnswerResult) (r : AnswerResult).

Lemma countWhere_le p results : countWhere p results ≤ length results.
Proof. apply length_filter. Qed.







End StatsFacts.




(** C7.  For every results sequence the [correct] and [incorrect] counts of
    [calculateStats] add up to its length (which is [total]); this holds for
    the hint-aware function and for the earlier variant. *)
Theorem calculateStats_correct_plus_incorrect (results : list AnswerResult) :
  (correctCount (calculateStats results) + incorrect (calculateStats results)
   = Z.of_nat (length results))%Z ∧
  total (calculateStats results) = Z.of_nat (length results) ∧
  (0 ≤ incorrect (calculateStats results))%Z ∧
  (Basic.correctCount (Basic.calculateStats results)
   + Basic.incorrect (Basic.calculateStats results)
   = Z.of_nat (length results))%Z.
Proof.
  pose proof (countWhere_le correct results).
  unfold calculateStats, Basic.calculateStats; simpl. lia.
Qed.

(** ** Quiz session controllers *)

Section ControllerFacts.
Implicit Types (s pending : Session) (w : SessionWord) (mode : Mode).
Local Arguments runEffects : simpl never.

Lemma runEffects_words mode old s : words (runEffects mode old s) = words s.
Proof. unfold runEffects. by repeat case_match. Qed.

Lemma runEffects_currentIndex mode old s :
  currentIndex (runEffects mode old s) = currentIndex s.
Proof. unfold runEffects. by repeat case_match. Qed.

Lemma runEffects_results mode old s :
  results (runEffects mode old s) = results s.
Proof. unfold runEffects. by repeat case_match. Qed.

Lemma runEffects_showAnswer mode old s :
  showAnswer (runEffects mode old s) = showAnswer s.
Proof. unfold runEffects. by repeat case_match. Qed.

Lemma runEffects_isCorrect mode old s :
  isCorrect (runEffects mode old s) = isCorrect s.
Proof. unfold runEffects. by repeat case_match. Qed.

Lemma advances_iff s : advances s = true ↔ currentIndex s + 1 < length (words s).
Proof. unfold advances. rewrite Z.ltb_lt. lia. Qed.

Lemma handleNext_words s pending w :
  words (handleNext s pending w).1
  = if insertsRetry s w
    then spliceInsert (Nat.min (currentIndex s + 3) (length (words s)))
           (retryCopy w) (words s)
    else words pending.
Proof.
  unfold handleNext, insertsRetry, retryCopy.
  by destruct (_ <? _)%Z, (_ && _).
Qed.

Lemma handleNext_currentIndex s pending w :
  currentIndex (handleNext s pending w).1
  = if advances s then currentIndex s + 1 else currentIndex pending.
Proof. unfold handleNext, advances. by destruct (_ <? _)%Z. Qed.

Lemma handleNext_results s pending w :
  results (handleNext s pending w).1 = results pending.
Proof. unfold handleNext. by destruct (_ <? _)%Z. Qed.

Lemma handleNext_completed s pending w :
  (handleNext s pending w).2
  = if advances s then None else Some (results s).
Proof. unfold handleNext, advances. by destruct (_ <? _)%Z. Qed.

(** Every event either leaves the working sequence and the index alone and
    completes nothing, or it is an advance: [handleNext] called from the Next
    button or from [handleSkip]. *)
Lemma step_cases mode s e :
  (words (step mode s e).1 = words s ∧
   currentIndex (step mode s e).1 = currentIndex s ∧
   (step mode s e).2 = None) ∨
  (∃ w pending,
     currentWord s = Some w ∧
     words pending = words s ∧ currentIndex pending = currentIndex s ∧
     (e = Next ∧ showAnswer s = true ∧ pending = s
      ∨ e = Skip ∧ showAnswer s = false) ∧
     words (step mode s e).1 = words (handleNext s pending w).1 ∧
     currentIndex (step mode s e).1 = currentIndex (handleNext s pending w).1 ∧
     results (step mode s e).1 = results pending ∧
     (step mode s e).2 = (handleNext s pending w).2).
Proof.
  unfold step. destruct (currentWord s) as [w|] eqn:Hw; [|by left].
  destruct e as [text| | | |u|], (showAnswer s) eqn:Hshow;
    try (left; simpl;
         rewrite ?runEffects_words, ?runEffects_currentIndex; done).
  - left. simpl. rewrite runEffects_words, runEffects_currentIndex.
    unfold handleSubmit. by destruct (noAnswer mode s).
  - right. exists w, s. destruct (handleNext s s w) as [s' c] eqn:E. simpl.
    rewrite runEffects_words, runEffects_currentIndex, runEffects_results.
    change s' with (s', c).1. rewrite <- E, handleNext_results. naive_solver.
  - right. unfold handleSkip.
    match goal with |- context [handleNext s ?p w] => exists w, p;
      destruct (handleNext s p w) as [s' c] eqn:E end. simpl.
    rewrite runEffects_words, runEffects_currentIndex, runEffects_results.
    change s' with (s', c).1. rewrite <- E, handleNext_results. naive_solver.
  - left. destruct mode; try case_decide; simpl;
      by rewrite ?runEffects_words, ?runEffects_currentIndex.
  - left. destruct mode; simpl;
      by rewrite ?runEffects_words, ?runEffects_currentIndex.
Qed.

(** The two advancing events, spelled out. *)
Lemma step_Next mode s w :
  currentWord s = Some w → showAnswer s = true →
  step mode s Next
  = (runEffects mode (Some s) (handleNext s s w).1, (handleNext s s w).2).
Proof.
  intros Hw Hs. unfold step. rewrite Hw, Hs.
  by destruct (handleNext s s w).
Qed.

Lemma step_Skip mode s w :
  currentWord s = Some w → showAnswer s = false →
  step mode s Skip
  = (runEffects mode (Some s) (handleSkip mode s w).1,
     (handleSkip mode s w).2).
Proof.
  intros Hw Hs. unfold step. rewrite Hw, Hs.
  by destruct (handleSkip mode s w).
Qed.

Lemma handleSkip_words mode s w :
  words (handleSkip mode s w).1
  = if insertsRetry s w
    then spliceInsert (Nat.min (currentIndex s + 3) (length (words s)))
           (retryCopy w) (words s)
    else words s.
Proof. unfold handleSkip. by rewrite handleNext_words. Qed.

Lemma handleSkip_currentIndex mode s w :
  currentIndex (handleSkip mode s w).1
  = if advances s then currentIndex s + 1 else currentIndex s.
Proof. unfold handleSkip. by rewrite handleNext_currentIndex. Qed.

Lemma handleSkip_completed mode s w :
  (handleSkip mode s w).2 = if advances s then None else Some (results s).
Proof. unfold handleSkip. by rewrite handleNext_completed. Qed.

(** An advancing event: its working sequence, index and completion. *)
Lemma step_advance mode s w e :
  currentWord s = Some w →
  (e = Next ∧ showAnswer s = true ∨ e = Skip ∧ showAnswer s = false) →
  words (step mode s e).1
  = (if insertsRetry s w
     then spliceInsert (Nat.min (currentIndex s + 3) (length (words s)))
            (retryCopy w) (words s)
     else words s) ∧
  currentIndex (step mode s e).1
  = (if advances s then currentIndex s + 1 else currentIndex s) ∧
  (step mode s e).2 = (if advances s then None else Some (results s)).
Proof.
  intros Hw [[-> Hs]|[-> Hs]].
  - rewrite (step_Next _ _ _ Hw Hs). simpl.
    by rewrite runEffects_words, runEffects_currentIndex, handleNext_words,
      handleNext_currentIndex, handleNext_completed.
  - rewrite (step_Skip _ _ _ Hw Hs). simpl.
    by rewrite runEffects_words, runEffects_currentIndex, handleSkip_words,
      handleSkip_currentIndex, handleSkip_completed.
Qed.

End ControllerFacts.

Section Occurrences.
Context `{EqDecision A}.
Implicit Types (x y : A) (l : list A).

Lemma occurrences_app x l1 l2 :
  occurrences x (l1 ++ l2) = occurrences x l1 + occurrences x l2.
Proof. unfold occurrences. by rewrite filter_app, length_app. Qed.

Lemma occurrences_cons x y l :
  occurrences x (y :: l) = (if decide (y = x) then 1 else 0) + occurrences x l.
Proof. unfold occurrences. rewrite filter_cons. by case_decide. Qed.

Lemma occurrences_spliceInsert x y p l :
  occurrences x (spliceInsert p y l)
  = (if decide (y = x) then 1 else 0) + occurrences x l.
Proof.
  unfold spliceInsert. rewrite occurrences_app, occurrences_cons.
  rewrite <- (take_drop p l) at 3. rewrite occurrences_app.
  destruct (decide (y = x)); lia.
Qed.

Lemma take_spliceInsert k p y l :
  k ≤ p → p ≤ length l → take k (spliceInsert p y l) = take k l.
Proof.
  intros Hk Hp. unfold spliceInsert.
  rewrite take_app_le.
  - rewrite take_take. f_equal. lia.
  - rewrite length_take. lia.
Qed.

Lemma occurrences_take_S x y k l :
  l !! k = Some y →
  occurrences x (take (S k) l)
  = occurrences x (take k l) + (if decide (y = x) then 1 else 0).
Proof.
  intros Hk. rewrite (take_S_r _ _ _ Hk), occurrences_app, occurrences_cons.
  change (occurrences x []) with 0. destruct (decide (y = x)); lia.
Qed.

Lemma occurrences_take_le x k l : occurrences x (take k l) ≤ occurrences x l.
Proof.
  rewrite <- (take_drop k l) at 2. rewrite occurrences_app. lia.
Qed.

Lemma occurrences_take_S_le x k l :
  occurrences x (take k l) ≤ occurrences x (take (S k) l).
Proof.
  destruct (l !! k) as [y|] eqn:Hk.
  - rewrite (occurrences_take_S _ _ _ _ Hk). destruct (decide (y = x)); lia.
  - apply lookup_ge_None in Hk. by rewrite !take_ge by lia.
Qed.

End Occurrences.

Lemma occurrences_fmap_inj `{EqDecision A, EqDecision B} (f : A → B)
    `{!Inj (=) (=) f} (x : A) (l : list A) :
  occurrences (f x) (f <$> l) = occurrences x l.
Proof.
  induction l as [|y l IH]; [done|]. rewrite fmap_cons.
  rewrite !occurrences_cons, IH.
  destruct (decide (y = x)) as [->|Hne]; [by rewrite decide_True|].
  rewrite decide_False; [done|]. by intros ?%(inj f).
Qed.

#[export] Instance fresh_inj : Inj (=) (=) fresh.
Proof. by intros ?? [=]. Qed.

Section SessionInvariant.
Implicit Types (s pending : Session) (w : SessionWord) (mode : Mode).

Lemma filter_fresh_spliceInsert p w (l : list SessionWord) :
  filter (λ x, retryCount x = 0) (spliceInsert p (retryCopy w) l)
  = filter (λ x, retryCount x = 0) l.
Proof.
  unfold spliceInsert. rewrite filter_app, filter_cons_False by done.
  by rewrite <- filter_app, take_drop.
Qed.

Lemma Forall_spliceInsert {A} (P : A → Prop) p x (l : list A) :
  P x → Forall P l → Forall P (spliceInsert p x l).
Proof.
  intros Hx Hl. unfold spliceInsert. apply Forall_app. split.
  - by apply Forall_take.
  - constructor; [done | by apply Forall_drop].
Qed.

(** An occurrence of a fresh word and the retry copy it gives rise to. *)
Lemma retryCopy_matches w e :
  retryCount w = 0 →
  (if decide (retryCopy w = {| entry := e; retryCount := 1 |}) then 1 else 0)
  = (if decide (w = fresh e) then 1 else 0).
Proof.
  destruct w as [e' r]. unfold retryCopy, fresh. simpl. intros ->.
  repeat case_decide; naive_solver.
Qed.

(** The working sequence after [handleNext]: the first attempt at the current
    position accounts for the copy it may have inserted. *)
Lemma handleNext_inv initialWords s pending w :
  currentWord s = Some w → words pending = words s →
  sessionInv initialWords (currentIndex s) (words s) →
  sessionInv initialWords (S (currentIndex s))
    (words (handleNext s pending w).1).
Proof.
  intros Hw Hp (Hfresh & Hle & Hret). rewrite handleNext_words, Hp.
  unfold currentWord in Hw. pose proof (lookup_lt_Some _ _ _ Hw) as Hlt.
  destruct (insertsRetry s w) eqn:Hins.
  - apply andb_prop in Hins as [_ Hr%Nat.eqb_eq].
    split; [|split].
    + by rewrite filter_fresh_spliceInsert.
    + apply Forall_spliceInsert; [simpl; lia | done].
    + intros e. rewrite take_spliceInsert by lia.
      rewrite occurrences_spliceInsert, (occurrences_take_S _ _ _ _ Hw).
      rewrite (retryCopy_matches _ _ Hr). specialize (Hret e). lia.
  - split; [done|]. split; [done|]. intros e. specialize (Hret e).
    pose proof (occurrences_take_S_le (fresh e) (currentIndex s) (words s)).
    lia.
Qed.

(** One event keeps the invariant; when it completes the session, the
    position just left counts as passed. *)
Lemma step_inv initialWords mode s e :
  sessionInv initialWords (currentIndex s) (words s) →
  let passed :=
    match (step mode s e).2 with
    | None => currentIndex (step mode s e).1
    | Some _ => S (currentIndex s)
    end in
  sessionInv initialWords passed (words (step mode s e).1).
Proof.
  intros Hinv.
  destruct (step_cases mode s e)
    as [(Hw & Hi & Hc)|(w & p & Hw & Hpw & Hpi & _ & Hws & Hci & _ & Hc)].
  - simpl. by rewrite Hc, Hw, Hi.
  - simpl. rewrite Hc, Hws, Hci, handleNext_completed, handleNext_currentIndex.
    destruct (advances s); rewrite Nat.add_1_r || idtac;
      by apply handleNext_inv.
Qed.

Lemma initSession_inv mode initialWords :
  sessionInv initialWords
    (currentIndex (initSession mode initialWords))
    (words (initSession mode initialWords)).
Proof.
  unfold initSession. rewrite runEffects_words, runEffects_currentIndex.
  simpl. split; [|split].
  - induction initialWords as [|x l IH]; csimpl; [done|].
    rewrite filter_cons_True by done. by f_equal.
  - apply Forall_fmap, Forall_true. simpl. lia.
  - intros e.
    assert (occurrences {| entry := e; retryCount := 1 |}
              (fresh <$> initialWords) = 0)
      as ->; [|lia].
    induction initialWords as [|x l IH]; [done|].
    rewrite fmap_cons, occurrences_cons, IH. by rewrite decide_False.
Qed.

Lemma run_inv initialWords mode events : ∀ s,
  sessionInv initialWords (currentIndex s) (words s) →
  ∃ passed, sessionInv initialWords passed (words (run mode s events).1).
Proof.
  induction events as [|e events IH]; intros s Hinv; simpl; [by eexists|].
  pose proof (step_inv initialWords mode s e Hinv) as Hstep. simpl in Hstep.
  destruct (step mode s e) as [s' [d|]]; simpl in *; [by eexists | by apply IH].
Qed.

End SessionInvariant.

Section Delivery.
Implicit Types (s pending : Session) (w : SessionWord) (mode : Mode).
Local Arguments runEffects : simpl never.

(** Every attempt appends exactly one result; nothing else touches the
    results. *)
Lemma step_results_length mode s e :
  length (results (step mode s e).1)
  = length (results s) + attemptMade mode s e.
Proof.
  unfold step, attemptMade.
  destruct (currentWord s) as [w|] eqn:Hw; [|by destruct e; simpl; lia].
  destruct e as [text| | | |u|], (showAnswer s) eqn:Hshow; simpl;
    rewrite ?runEffects_results; simpl; try lia.
  - unfold handleSubmit. destruct (noAnswer mode s); simpl;
      rewrite ?length_app; simpl; lia.
  - destruct (handleNext s s w) as [s' c] eqn:E. simpl.
    rewrite runEffects_results. change s' with (s', c).1.
    rewrite <- E, handleNext_results. lia.
  - unfold handleSkip.
    match goal with |- context [handleNext s ?p w] =>
      destruct (handleNext s p w) as [s' c] eqn:E end. simpl.
    rewrite runEffects_results. change s' with (s', c).1.
    rewrite <- E, handleNext_results. simpl. by rewrite length_app.
  - destruct mode; try case_decide; simpl; rewrite ?runEffects_results;
      simpl; lia.
  - destruct mode; simpl; rewrite ?runEffects_results; simpl; lia.
Qed.

(** The results a controller holds are one per attempt. *)
Lemma run_results_length mode events : ∀ s,
  length (results (run mode s events).1)
  = length (results s) + attempts mode s events.
Proof.
  induction events as [|e events IH]; intros s; simpl; [lia|].
  pose proof (step_results_length mode s e) as Hstep.
  destruct (step mode s e) as [s' [d|]]; simpl in *; [done|].
  rewrite IH. lia.
Qed.

(** What [onComplete] receives: the results of the render in which the
    completing handler was created.  After the Next button these are all
    results; after Skip on the last word the result of that skip is missing. *)
Lemma step_delivered mode s e d :
  (step mode s e).2 = Some d →
  length d + attemptMade mode s e = length (results (step mode s e).1).
Proof.
  intros Hd. rewrite step_results_length.
  destruct (step_cases mode s e)
    as [(_ & _ & Hc)|(w & p & _ & _ & _ & _ & _ & _ & _ & Hc)];
    rewrite Hc in Hd; [done|].
  rewrite handleNext_completed in Hd. destruct (advances s); [done|].
  by injection Hd as <-.
Qed.

Lemma attemptMade_le_1 mode s e : attemptMade mode s e ≤ 1.
Proof. unfold attemptMade. repeat case_match; lia. Qed.

(** Over a whole run that completes, [onComplete] receives one result per
    attempt, short of at most one: the result of a skip on the last word. *)
Lemma run_delivered_bounds mode events : ∀ s d,
  (run mode s events).2 = Some d →
  length d ≤ length (results s) + attempts mode s events ≤ S (length d).
Proof.
  induction events as [|e events IH]; intros s d Hd; simpl in *; [done|].
  pose proof (step_results_length mode s e) as Hlen.
  pose proof (step_delivered mode s e) as Hdel.
  pose proof (attemptMade_le_1 mode s e) as Hle.
  destruct (step mode s e) as [s' [d'|]]; simpl in *.
  - injection Hd as ->. specialize (Hdel d eq_refl). lia.
  - specialize (IH s' d Hd). lia.
Qed.

End Delivery.

(** C1.  Retry-insertion policy, in each of the three controllers.  Advancing
    (by the Next button after a wrong answer, or by Skip) away from a word
    that was not answered correctly and whose [retryCount] is 0 inserts a copy
    with [retryCount] 1 at index [p = min (currentIndex + 3) (length words)] of
    the working sequence: the new sequence is the first [p] words, the copy,
    and the remaining words; it is one longer, holds the copy at index [p],
    the words before [p] where they were and the words from [p] on one place
    further.  No event re-inserts a word whose [retryCount] is not 0, or one
    answered correctly; hence in every run the entries with [retryCount] 0
    remain the initial words, every [retryCount] is at most 1, and a word has
    at most as many retry copies as it has occurrences in the initial list:
    each word is retried at most once. *)
Theorem retry_insertion_policy (mode : Mode) :
  (∀ s w e,
     currentWord s = Some w → retryCount w = 0 → isCorrect s ≠ Some true →
     (e = Next ∧ showAnswer s = true ∨ e = Skip ∧ showAnswer s = false) →
     let p := Nat.min (currentIndex s + 3) (length (words s)) in
     let copy := {| entry := entry w; retryCount := 1 |} in
     let ws' := words (step mode s e).1 in
     ws' = take p (words s) ++ copy :: drop p (words s) ∧
     length ws' = S (length (words s)) ∧
     ws' !! p = Some copy ∧
     (∀ j, j < p → ws' !! j = words s !! j) ∧
     (∀ j, p ≤ j → ws' !! S j = words s !! j)) ∧
  (∀ s w e,
     currentWord s = Some w → retryCount w ≠ 0 ∨ isCorrect s = Some true →
     words (step mode s e).1 = words s) ∧
  (∀ initialWords events,
     let ws := words (run mode (initSession mode initialWords) events).1 in
     filter (λ x, retryCount x = 0) ws = fresh <$> initialWords ∧
     Forall (λ x, retryCount x ≤ 1) ws ∧
     ∀ w, occurrences {| entry := w; retryCount := 1 |} ws
          ≤ occurrences w initialWords).
Proof.
  split; [|split].
  - intros s w e Hw Hr Hc He p copy ws'.
    assert (ws' = take p (words s) ++ copy :: drop p (words s)) as Hws.
    { unfold ws'. destruct (step_advance mode s w e Hw He) as (-> & _ & _).
      unfold insertsRetry. rewrite Hr. by destruct (isCorrect s) as [[]|]. }
    assert (p ≤ length (words s)) as Hp by (unfold p; lia).
    assert (length (take p (words s)) = p) as Htake
      by (rewrite length_take; lia).
    split; [done|]. rewrite Hws. split; [|split; [|split]].
    + rewrite length_app, length_cons, Htake, length_drop. lia.
    + rewrite lookup_app_r by lia. by rewrite Htake, Nat.sub_diag.
    + intros j Hj. rewrite lookup_app_l by lia. by apply lookup_take_lt.
    + intros j Hj. rewrite lookup_app_r by lia. rewrite Htake.
      replace (S j - p) with (S (j - p)) by lia. simpl.
      rewrite lookup_drop. f_equal. lia.
  - intros s w e Hw Hno.
    destruct (step_cases mode s e)
      as [(Hws & _)|(w' & p & Hw' & Hpw & _ & _ & Hws & _ & _ & _)]; [done|].
    rewrite Hws, handleNext_words, Hpw. simplify_eq.
    unfold insertsRetry. destruct Hno as [Hr| ->]; [|done].
    apply Nat.eqb_neq in Hr. rewrite Hr. by rewrite andb_false_r.
  - intros initialWords events ws.
    destruct (run_inv initialWords mode events _
                (initSession_inv mode initialWords))
      as (passed & Hfresh & Hle & Hret).
    fold ws in Hfresh, Hle, Hret. split; [done|]. split; [done|].
    intros w. specialize (Hret w).
    pose proof (occurrences_take_le (fresh w) passed ws) as Htake.
    assert (occurrences (fresh w) ws = occurrences w initialWords) as <-;
      [|lia].
    rewrite <- (occurrences_fmap_inj fresh w initialWords), <- Hfresh.
    unfold occurrences. rewrite list_filter_filter. f_equal.
    apply list_filter_iff. intros x. split; [by intros -> | by intros [? _]].
Qed.

(** The example of the design document: over [A; B; C; D], a wrong answer for
    [A] puts its copy at position [min (0 + 3) 4 = 3], which gives
    [A; B; C; A (retry); D]. *)
Lemma retry_insertion_policy_witness :
  let s :=
    (run FillBlank (initSession FillBlank (sampleWord <$> ["A"; "B"; "C"; "D"]))
       [Input "x"; Submit]).1 in
  words (step FillBlank s Next).1
  = [fresh (sampleWord "A"); fresh (sampleWord "B"); fresh (sampleWord "C");
     {| entry := sampleWord "A"; retryCount := 1 |}; fresh (sampleWord "D")] ∧
  words (step FillBlank s Next).1 !! 3
  = Some {| entry := sampleWord "A"; retryCount := 1 |}.
Proof.
  intros s.
  destruct (proj1 (retry_insertion_policy FillBlank) s
              (fresh (sampleWord "A")) Next) as (Hws & _ & Hcopy & _).
  - reflexivity.
  - reflexivity.
  - vm_compute. discriminate.
  - left. split; reflexivity.
  - split; [exact Hws | exact Hcopy].
Defined.

Section FinalPosition.
Implicit Types (s : Session) (w : SessionWord) (mode : Mode).

Lemma spliceInsert_end {A} p (x : A) l :
  length l ≤ p → spliceInsert p x l = l ++ [x].
Proof.
  intros Hp. unfold spliceInsert. by rewrite take_ge, drop_ge by lia.
Qed.

Lemma advances_last s :
  currentIndex s + 1 = length (words s) → advances s = false.
Proof.
  intros Hlast. destruct (advances s) eqn:E; [|done].
  apply advances_iff in E. lia.
Qed.

(** An advance from the last position completes the session, with the results
    of the render that created the handler, whatever was inserted. *)
Lemma step_advance_last mode s w e :
  currentWord s = Some w → currentIndex s + 1 = length (words s) →
  (e = Next ∧ showAnswer s = true ∨ e = Skip ∧ showAnswer s = false) →
  (step mode s e).2 = Some (results s) ∧
  currentIndex (step mode s e).1 = currentIndex s.
Proof.
  intros Hw Hlast He.
  destruct (step_advance mode s w e Hw He) as (_ & -> & ->).
  by rewrite (advances_last _ Hlast).
Qed.

End FinalPosition.

(** C10.  In each controller, when the word at the last position of the
    working sequence is left (by Next after a wrong answer, or by Skip) on its
    first attempt, the copy with [retryCount] 1 is still appended to the
    working sequence, but the index stays where it is and [onComplete] is
    called at once, with the results of the render that created the handler:
    the advance test used the length before the insertion.  The run ends
    there, whatever events follow: the copy is never the current word and no
    further attempt or result is made. *)
Theorem missed_final_word_completes_without_retry (mode : Mode) (s : Session)
    (w : SessionWord) (e : Event) (events : list Event) :
  currentWord s = Some w → currentIndex s + 1 = length (words s) →
  retryCount w = 0 → isCorrect s ≠ Some true →
  (e = Next ∧ showAnswer s = true ∨ e = Skip ∧ showAnswer s = false) →
  words (step mode s e).1
    = words s ++ [{| entry := entry w; retryCount := 1 |}] ∧
  currentIndex (step mode s e).1 = currentIndex s ∧
  currentWord (step mode s e).1 = Some w ∧
  (step mode s e).2 = Some (results s) ∧
  run mode s (e :: events) = ((step mode s e).1, Some (results s)) ∧
  attempts mode s (e :: events) = attemptMade mode s e.
Proof.
  intros Hw Hlast Hr Hc He.
  destruct (step_advance_last mode s w e Hw Hlast He) as [Hdone Hidx].
  assert (words (step mode s e).1 = words s ++ [retryCopy w]) as Hws.
  { destruct (step_advance mode s w e Hw He) as (-> & _ & _).
    unfold insertsRetry. rewrite Hr.
    replace (negb (default false (isCorrect s))) with true
      by by destruct (isCorrect s) as [[]|].
    apply spliceInsert_end. lia. }
  split; [done|]. split; [done|]. split.
  - unfold currentWord in *. rewrite Hws, Hidx.
    by apply lookup_app_l_Some.
  - split; [done|]. simpl.
    destruct (step mode s e) as [s' d]; simpl in *. by rewrite Hdone.
Qed.

(** A one-word letter-puzzle session: a wrong answer, then Next. *)
Lemma missed_final_word_completes_without_retry_witness :
  let s :=
    (run LetterPuzzle (initSession LetterPuzzle [sampleWord "cat"])
       [Input "cot"; Submit]).1 in
  run LetterPuzzle s [Next; Next; Input "cat"; Submit]
  = ((step LetterPuzzle s Next).1, Some (results s)).
Proof.
  intros s.
  refine (proj1 (proj2 (proj2 (proj2 (proj2
    (missed_final_word_completes_without_retry LetterPuzzle s
       (fresh (sampleWord "cat")) Next [Next; Input "cat"; Submit]
       _ _ _ _ _)))))).
  - reflexivity.
  - reflexivity.
  - reflexivity.
  - vm_compute. discriminate.
  - left. split; reflexivity.
Defined.

(** C2 fails on the Skip path.  When the current word is the last of the
    working sequence and the user skips it, [handleSkip] schedules the result
    of the skip and calls [handleNext], which hands [onComplete] the results
    of the current render: the session completes, the controller holds one
    result more than the callback received, and the attempts of the run
    outnumber the delivered results. *)
Theorem skip_on_last_word_result_not_delivered (mode : Mode) (s : Session)
    (w : SessionWord) (events : list Event) :
  currentWord s = Some w → showAnswer s = false →
  currentIndex s + 1 = length (words s) →
  (step mode s Skip).2 = Some (results s) ∧
  run mode s (Skip :: events) = ((step mode s Skip).1, Some (results s)) ∧
  length (results (step mode s Skip).1) = S (length (results s)) ∧
  attempts mode s (Skip :: events) = 1.
Proof.
  intros Hw Hs Hlast.
  destruct (step_advance_last mode s w Skip Hw Hlast) as [Hdone _]; [auto|].
  pose proof (step_results_length mode s Skip) as Hlen.
  assert (attemptMade mode s Skip = 1) as Hmade
    by (unfold attemptMade; by rewrite Hw, Hs).
  split; [done|]. simpl.
  destruct (step mode s Skip) as [s' d]; simpl in *. rewrite Hdone.
  repeat split; (done || lia).
Qed.

(** The failing input: a session over the single word "cat", skipped.  One
    attempt was made; [onComplete] receives no result. *)
Lemma skip_on_last_word_result_not_delivered_witness :
  run FillBlank (initSession FillBlank [sampleWord "cat"]) [Skip]
  = ((step FillBlank (initSession FillBlank [sampleWord "cat"]) Skip).1,
     Some []) ∧
  attempts FillBlank (initSession FillBlank [sampleWord "cat"]) [Skip] = 1.
Proof.
  pose proof (skip_on_last_word_result_not_delivered FillBlank
    (initSession FillBlank [sampleWord "cat"]) (fresh (sampleWord "cat")) []
    eq_refl eq_refl eq_refl) as (_ & Hrun & _ & Hatt).
  exact (conj Hrun Hatt).
Defined.

(** On the Next path nothing is lost: what [onComplete] receives after the
    Next button is every result the controller holds, one per attempt of the
    run. *)
Lemma next_delivers_all_results mode s w :
  currentWord s = Some w → showAnswer s = true →
  currentIndex s + 1 = length (words s) →
  (step mode s Next).2 = Some (results (step mode s Next).1).
Proof.
  intros Hw Hs Hlast.
  destruct (step_advance_last mode s w Next Hw Hlast) as [-> _]; [auto|].
  rewrite (step_Next _ _ _ Hw Hs). simpl.
  by rewrite runEffects_results, handleNext_results.
Qed.

(** ** History store *)

(** C8.  [getHistory] returns the empty sequence when the history record is
    missing, and when the stored text fails to parse; in the latter case the
    error goes to the console and nothing is raised ([getHistory] always
    returns a value).  After [clearHistory], [getHistory] returns the empty
    sequence, and the record is gone whenever storage is accessible. *)
Theorem getHistory_empty_when_missing_or_corrupt
    (JSON_parse : string → Outcome JSValue) (b : Browser) :
  (items b !! HISTORY_KEY = None →
   (getHistory JSON_parse b).1 = JArray [] ∧
   (accessDenied b = false → getHistory JSON_parse b = (JArray [], b))) ∧
  (∀ text error,
     accessDenied b = false → items b !! HISTORY_KEY = Some text →
     JSON_parse text = Thrown error →
     (getHistory JSON_parse b).1 = JArray [] ∧
     (text ≠ ""%string →
      errorLog (getHistory JSON_parse b).2
      = errorLog b ++ [("Error reading history:"%string, error)])) ∧
  (getHistory JSON_parse (clearHistory b)).1 = JArray [] ∧
  (accessDenied b = false → items (clearHistory b) !! HISTORY_KEY = None).
Proof.
  split; [|split; [|split]].
  - intros Hnone. unfold getHistory, getItem. rewrite Hnone.
    by destruct (accessDenied b).
  - intros text error Hacc Hsome Hparse. unfold getHistory, getItem.
    rewrite Hacc, Hsome.
    destruct (String.eqb_spec text ""); [done|]. rewrite Hparse.
    split; [done|]. by intros _.
  - destruct b as [stored [] log];
      unfold clearHistory, removeItem, getHistory, getItem; simpl; [done|].
    by rewrite lookup_delete_eq.
  - intros Hacc. unfold clearHistory, removeItem. rewrite Hacc. simpl.
    apply lookup_delete_eq.
Qed.

(** A corrupt record, "oops", is read as the empty sequence; clearing then
    removes it. *)
Lemma getHistory_empty_when_missing_or_corrupt_witness :
  let b := {| items := {[ HISTORY_KEY := "oops"%string ]};
              accessDenied := false; errorLog := [] |} in
  ((getHistory parseEmptyArrayOnly b).1 = JArray [] ∧
   ("oops"%string ≠ ""%string →
    errorLog (getHistory parseEmptyArrayOnly b).2
    = errorLog b ++ [("Error reading history:"%string, "SyntaxError"%string)]))
  ∧ items (clearHistory b) !! HISTORY_KEY = None.
Proof.
  intros b. split.
  - apply (proj1 (proj2 (getHistory_empty_when_missing_or_corrupt
             parseEmptyArrayOnly b)) "oops"%string "SyntaxError"%string);
      [reflexivity | apply lookup_singleton_eq | reflexivity].
  - apply (proj2 (proj2 (proj2 (getHistory_empty_when_missing_or_corrupt
             parseEmptyArrayOnly b)))). reflexivity.
Defined.

(** ** Speech service *)

Section SpeechFacts.
Variable encodeURIComponent : string → string.
Implicit Types (sp : Speech) (response : AudioResponse).

Lemma playDictionaryAudio_static word uk response sp :
  let sp' := (playDictionaryAudio encodeURIComponent word uk response sp).2 in
  audioSource sp' = audioSource sp ∧ isSupported sp' = isSupported sp ∧
  queue sp' = queue sp ∧ voices sp' = voices sp.
Proof.
  unfold playDictionaryAudio. destruct (audioMounted sp); simpl; [|done].
  destruct response as [ms [] | ms |]; simpl; try done;
    by destruct (ms <? LOAD_TIMEOUT_MS).
Qed.

(** [speak] in terms of the dictionary attempt, for a single alphabetic word
    and a source other than synthesis-only. *)
Lemma speak_after_attempt text lang rate response sp :
  Text.isAlphabetic (Text.trim text) = true → audioSource sp ≠ webspeech →
  speak encodeURIComponent text lang rate response sp
  = match dictionaryAttempt encodeURIComponent text response sp with
    | (Returned _, sp') => (Returned (), sp')
    | (Thrown error, sp') =>
        let logged :=
          console_line
            ("Dictionary audio failed, falling back to Web Speech API: "
             +:+ error) sp' in
        match audioSource sp with
        | dictionary => (Returned (), logged)
        | _ => (Returned (), speakWithWebSpeech text lang rate logged)
        end
    end.
Proof.
  intros Hword Hsrc. unfold speak, dictionaryAttempt. rewrite Hword.
  pose proof (playDictionaryAudio_static (Text.trim text) false response
                (stop sp)) as (Hs & _).
  simpl in Hs.
  destruct (playDictionaryAudio _ _ _ _ _) as [[[]|error] sp'];
    simpl in *; destruct (audioSource sp) eqn:E; try done;
    by rewrite Hs.
Qed.

Lemma speak_returns text lang rate response sp :
  (speak encodeURIComponent text lang rate response sp).1 = Returned ().
Proof.
  unfold speak, playDictionaryAudio, stop. simpl.
  destruct (audioSource sp), (Text.isAlphabetic (Text.trim text)),
    (audioMounted sp), response as [ms [] | ms |]; simpl; try done;
    by destruct (ms <? LOAD_TIMEOUT_MS).
Qed.

Lemma dictionaryAttempt_fails_quietly text response sp :
  failsBeforePlayable response →
  ∃ error sp',
    dictionaryAttempt encodeURIComponent text response sp = (Thrown error, sp')
    ∧ isSpeaking sp' = false.
Proof.
  intros Hfail. unfold dictionaryAttempt, playDictionaryAudio.
  destruct (audioMounted (stop sp)); simpl; [|by eauto].
  destruct response as [ms ok | ms |]; simpl in *.
  - destruct (Nat.ltb_spec ms LOAD_TIMEOUT_MS); [lia | by eauto].
  - destruct (ms <? LOAD_TIMEOUT_MS); by eauto.
  - by eauto.
Qed.

Lemma speakWithWebSpeech_queue text lang rate sp :
  isSupported sp = true →
  ∃ voice,
    queue (speakWithWebSpeech text lang rate sp)
    = [{| uText := text; uLang := lang; uRate := rate; uPitch := 1%float;
          uVolume := 1%float; uVoice := voice |}].
Proof.
  intros Hsup. unfold speakWithWebSpeech. rewrite Hsup. simpl. by eexists.
Qed.

Lemma speakWithWebSpeech_isSpeaking text lang rate sp :
  isSpeaking (speakWithWebSpeech text lang rate sp) = isSpeaking sp.
Proof. unfold speakWithWebSpeech. by destruct (isSupported sp). Qed.

End SpeechFacts.

(** C9, evaluated on the code.  For a single alphabetic word and a source
    other than synthesis-only: [speak] never raises; when the dictionary
    attempt fails and the source is not dictionary-only, the synthesis
    fallback is handed the same text, language and rate; when the attempt
    fails by a load error or by the 3-second timeout, [isSpeaking] is false
    when [speak] is done and becomes true at the utterance's start event.
    But when the audio became playable in time and [play()] was rejected,
    [isSpeaking] was set by [handleCanPlay] and nothing cleared it: it is
    already true before the fallback starts. *)
Theorem speak_fallback_after_failed_dictionary_audio
    (encodeURIComponent : string → string) (text lang : string) (rate : float)
    (response : AudioResponse) (sp : Speech) :
  Text.isAlphabetic (Text.trim text) = true → audioSource sp ≠ webspeech →
  let after := (speak encodeURIComponent text lang rate response sp).2 in
  (speak encodeURIComponent text lang rate response sp).1 = Returned () ∧
  (∀ error sp',
     dictionaryAttempt encodeURIComponent text response sp = (Thrown error, sp') →
     audioSource sp ≠ dictionary → isSupported sp = true →
     ∃ voice,
       queue after
       = [{| uText := text; uLang := lang; uRate := rate; uPitch := 1%float;
             uVolume := 1%float; uVoice := voice |}]) ∧
  (failsBeforePlayable response →
   isSpeaking after = false ∧
   isSpeaking (onChannelEvent UtteranceStart after) = true) ∧
  (∀ afterMs,
     response = CanPlayThrough afterMs false → afterMs < LOAD_TIMEOUT_MS →
     audioMounted sp = true →
     (dictionaryAttempt encodeURIComponent text response sp).1
       = Thrown "NotAllowedError" ∧
     isSpeaking after = true).
Proof.
  intros Hword Hsrc after. split; [apply speak_returns|].
  unfold after. rewrite (speak_after_attempt _ _ _ _ _ _ Hword Hsrc).
  split; [|split].
  - intros error sp' Hatt Hdict Hsup. rewrite Hatt. simpl.
    pose proof (playDictionaryAudio_static encodeURIComponent (Text.trim text)
                  false response (stop sp)) as (_ & Hs & _).
    unfold dictionaryAttempt in Hatt. rewrite Hatt in Hs. simpl in Hs.
    destruct (audioSource sp); try done; simpl;
      apply speakWithWebSpeech_queue; simpl; congruence.
  - intros Hfail.
    destruct (dictionaryAttempt_fails_quietly encodeURIComponent text response
                sp Hfail) as (error & sp' & -> & Hquiet).
    split; [|done]. simpl.
    destruct (audioSource sp); simpl;
      by rewrite ?speakWithWebSpeech_isSpeaking.
  - intros ms -> Hms Hmounted.
    unfold dictionaryAttempt, playDictionaryAudio. simpl. rewrite Hmounted.
    simpl. destruct (Nat.ltb_spec ms LOAD_TIMEOUT_MS); [|lia]. simpl.
    split; [done|].
    destruct (audioSource sp); simpl;
      by rewrite ?speakWithWebSpeech_isSpeaking.
Qed.

(** The failing run: "cat", hybrid source, the audio playable after 100 ms,
    [play()] rejected.  The fallback utterance is queued and [isSpeaking] is
    true although no utterance has started. *)
Lemma speak_fallback_after_failed_dictionary_audio_witness :
  (dictionaryAttempt id "cat" (CanPlayThrough 100 false) sampleSpeech).1
    = Thrown "NotAllowedError" ∧
  isSpeaking
    (speak id "cat" "en-US" 0x1.6666666666666p-1%float
       (CanPlayThrough 100 false) sampleSpeech).2 = true.
Proof.
  refine (proj2 (proj2 (proj2
    (speak_fallback_after_failed_dictionary_audio id "cat" "en-US"
       0x1.6666666666666p-1%float (CanPlayThrough 100 false) sampleSpeech
       _ _))) 100 _ _ _).
  - reflexivity.
  - discriminate.
  - reflexivity.
  - vm_compute. lia.
  - reflexivity.
Defined.
